(** * One-time key store of the Olm account (src/olm/account/one_time_keys.rs)

    Shallow embedding of [OneTimeKeys] and [OneTimeKeysPickle].

    - [KeyId] is the u64 counter value carried by [KeyId]; the counter
      increment [self.key_id += 1] is written with its u64 wrap-around.
    - Curve25519 secret and public keys are kept as numbers (their 32 bytes);
      the curve arithmetic behind [Curve25519PublicKey::from] is the
      section variable [derive_public].
    - The [BTreeMap]s and the [HashMap] are stdpp [gmap]s; the ascending
      iteration order of a [BTreeMap] is [btree_iter] (the bindings sorted by
      key), and [keys().next()] is [first_key].
    - [thread_rng] is replaced by the explicit list of secret keys it
      yields: [generate s draws] is [generate(draws.len())]. *)

From stdpp Require Import base gmap list sorting.
From Stdlib Require Import NArith.

Abbreviation KeyId := N.
Abbreviation SecretKey := N.
Abbreviation PublicKey := N.

(** [u64] arithmetic: [x += 1] wraps at 2^64 (release profile). *)
Definition U64_MODULUS : N := 2 ^ 64.

Definition u64_incr (x : N) : N := ((x + 1) mod U64_MODULUS)%N.

Record OneTimeKeys := mkOneTimeKeys {
  key_id : N;
  unpublished_public_keys : gmap KeyId PublicKey;
  private_keys : gmap KeyId SecretKey;
  reverse_public_keys : gmap PublicKey KeyId;
}.

Record OneTimeKeysPickle := mkOneTimeKeysPickle {
  pickle_key_id : N;
  pickle_public_keys : gmap KeyId PublicKey;
  pickle_private_keys : gmap KeyId SecretKey;
}.

(** ** BTreeMap iteration *)

Definition key_le {A} (a b : KeyId * A) : Prop := (a.1 <= b.1)%N.

#[global] Instance key_le_dec {A} : RelDecision (@key_le A) :=
  fun a b => decide (a.1 <= b.1)%N.

(** [m.iter()] / [m.into_iter()]: bindings in ascending key order. *)
Definition btree_iter {A} (m : gmap KeyId A) : list (KeyId * A) :=
  merge_sort key_le (map_to_list m).

(** [m.keys().next().copied()]: the smallest key. *)
Definition first_key {A} (m : gmap KeyId A) : option KeyId :=
  fst <$> head (btree_iter m).

(** [iter.collect::<BTreeMap<_, _>>()]: insert the pairs one by one. *)
Definition btree_collect {A} (l : list (KeyId * A)) : gmap KeyId A :=
  fold_left (fun m kv => <[kv.1 := kv.2]> m) l ∅.

(** Calls a caller can make; [OpGet] is the read-only [get_secret_key] and
    [OpRoundtrip] pickles the store and loads it back. *)
Inductive op :=
| OpGenerate (draws : list SecretKey)
| OpMarkPublished
| OpRemove (public_key : PublicKey)
| OpGet (public_key : PublicKey)
| OpRoundtrip.

Fixpoint generated_count (ops : list op) : nat :=
  match ops with
  | [] => 0
  | OpGenerate draws :: rest => length draws + generated_count rest
  | _ :: rest => generated_count rest
  end.

(** [k] is the smallest key of [m]. *)
Definition is_min_key {A} (m : gmap KeyId A) (k : KeyId) : Prop :=
  is_Some (m !! k) /\ forall k', is_Some (m !! k') -> (k <= k')%N.

(** ** The store *)

Section Store.

(** [Curve25519PublicKey::from(&secret)]. *)
Variable derive_public : SecretKey -> PublicKey.

(** Modelled from the spec: [PUBLIC_MAX_ONE_TIME_KEYS] is declared in the
    parent [account] module, which is not part of the sources; the spec only
    says that the store has a fixed maximum capacity. *)
Variable PUBLIC_MAX_ONE_TIME_KEYS : nat.

Definition MAX_ONE_TIME_KEYS : nat := 100 * PUBLIC_MAX_ONE_TIME_KEYS.

Definition new : OneTimeKeys := mkOneTimeKeys 0 ∅ ∅ ∅.

Definition mark_as_published (s : OneTimeKeys) : OneTimeKeys :=
  mkOneTimeKeys (key_id s) ∅ (private_keys s) (reverse_public_keys s).

Definition get_secret_key (s : OneTimeKeys) (public_key : PublicKey)
    : option SecretKey :=
  reverse_public_keys s !! public_key ≫= fun kid => private_keys s !! kid.

(** [remove_secret_key]: the new state and the returned key.
    [HashMap::remove] deletes the binding (a no-op when it is absent) and
    returns the old value. *)
Definition remove_secret_key (s : OneTimeKeys) (public_key : PublicKey)
    : OneTimeKeys * option SecretKey :=
  let reverse := delete public_key (reverse_public_keys s) in
  match reverse_public_keys s !! public_key with
  | None =>
      (mkOneTimeKeys (key_id s) (unpublished_public_keys s) (private_keys s)
         reverse, None)
  | Some kid =>
      (mkOneTimeKeys (key_id s) (delete kid (unpublished_public_keys s))
         (delete kid (private_keys s)) reverse,
       private_keys s !! kid)
  end.

(** The eviction block of [insert_secret_key]. *)
Definition evict_oldest (s : OneTimeKeys) : OneTimeKeys :=
  if decide (MAX_ONE_TIME_KEYS <= size (private_keys s)) then
    match first_key (private_keys s) with
    | Some old =>
        let reverse :=
          match private_keys s !! old with
          | Some private_key =>
              delete (derive_public private_key) (reverse_public_keys s)
          | None => reverse_public_keys s
          end in
        mkOneTimeKeys (key_id s) (delete old (unpublished_public_keys s))
          (delete old (private_keys s)) reverse
    | None => s
    end
  else s.

Definition insert_secret_key (s : OneTimeKeys) (kid : KeyId) (key : SecretKey)
    (published : bool) : OneTimeKeys :=
  let s1 := evict_oldest s in
  let public_key := derive_public key in
  mkOneTimeKeys (key_id s1)
    (if published then unpublished_public_keys s1
     else <[kid := public_key]> (unpublished_public_keys s1))
    (<[kid := key]> (private_keys s1))
    (<[public_key := kid]> (reverse_public_keys s1)).

Definition set_key_id (s : OneTimeKeys) (n : N) : OneTimeKeys :=
  mkOneTimeKeys n (unpublished_public_keys s) (private_keys s)
    (reverse_public_keys s).

(** One iteration of the loop of [generate]. *)
Definition generate_one (s : OneTimeKeys) (key : SecretKey) : OneTimeKeys :=
  let s1 := insert_secret_key s (key_id s) key false in
  set_key_id s1 (u64_incr (key_id s1)).

Fixpoint generate (s : OneTimeKeys) (draws : list SecretKey) : OneTimeKeys :=
  match draws with
  | [] => s
  | key :: rest => generate (generate_one s key) rest
  end.

(** The [KeyId]s handed to [insert_secret_key] by the same loop. *)
Fixpoint generate_ids (s : OneTimeKeys) (draws : list SecretKey) : list KeyId :=
  match draws with
  | [] => []
  | key :: rest => key_id s :: generate_ids (generate_one s key) rest
  end.

(** ** The pickle *)

Definition to_pickle (s : OneTimeKeys) : OneTimeKeysPickle :=
  mkOneTimeKeysPickle (key_id s)
    (btree_collect (btree_iter (unpublished_public_keys s)))
    (private_keys s).

Definition from_pickle (p : OneTimeKeysPickle) : OneTimeKeys :=
  let reverse :=
    fold_left (fun m kv => <[kv.2 := kv.1]> m)
      (btree_iter (pickle_public_keys p)) ∅ in
  mkOneTimeKeys (pickle_key_id p)
    (btree_collect (btree_iter (pickle_public_keys p)))
    (pickle_private_keys p) reverse.

Definition roundtrip (s : OneTimeKeys) : OneTimeKeys :=
  from_pickle (to_pickle s).

(** ** Reachable stores

    [thread_rng] is a cryptographically secure source: the keys it draws
    have public keys distinct from each other and from the keys held
    ([fresh_draws]).  The u64 counter never wraps on the way: fewer than
    2^64 keys are generated over the life of the store. *)
Definition fresh_draws (s : OneTimeKeys) (draws : list SecretKey) : Prop :=
  NoDup (derive_public <$> draws) /\
  map_Forall (fun _ p => derive_public p ∉ derive_public <$> draws)
    (private_keys s).

Inductive reachable : OneTimeKeys -> Prop :=
| reachable_new : reachable new
| reachable_generate s draws :
    reachable s -> fresh_draws s draws ->
    (key_id s + N.of_nat (length draws) < U64_MODULUS)%N ->
    reachable (generate s draws)
| reachable_publish s : reachable s -> reachable (mark_as_published s)
| reachable_remove s public_key :
    reachable s -> reachable (remove_secret_key s public_key).1
| reachable_roundtrip s : reachable s -> reachable (roundtrip s).

(** Stores reached without going through a pickle. *)
Inductive reachable_live : OneTimeKeys -> Prop :=
| live_new : reachable_live new
| live_generate s draws :
    reachable_live s -> fresh_draws s draws ->
    (key_id s + N.of_nat (length draws) < U64_MODULUS)%N ->
    reachable_live (generate s draws)
| live_publish s : reachable_live s -> reachable_live (mark_as_published s)
| live_remove s public_key :
    reachable_live s -> reachable_live (remove_secret_key s public_key).1.

(** The store invariant maintained by every operation. *)
Record store_inv (s : OneTimeKeys) : Prop := {
  inv_ids : forall kid, is_Some (private_keys s !! kid) -> (kid < key_id s)%N;
  inv_unpublished : forall kid v, unpublished_public_keys s !! kid = Some v ->
    exists p, private_keys s !! kid = Some p /\ derive_public p = v;
  inv_injective : forall k1 k2 p1 p2,
    private_keys s !! k1 = Some p1 -> private_keys s !! k2 = Some p2 ->
    derive_public p1 = derive_public p2 -> k1 = k2;
  inv_reverse : forall pk kid, reverse_public_keys s !! pk = Some kid ->
    exists p, private_keys s !! kid = Some p /\ derive_public p = pk;
}.

(** I1 of the spec: every held key is indexed by its public key, and the
    reverse index has one entry per held key. *)
Definition index_consistent (s : OneTimeKeys) : Prop :=
  map_Forall (fun kid p => reverse_public_keys s !! derive_public p = Some kid)
    (private_keys s) /\
  size (reverse_public_keys s) = size (private_keys s).

(** A sequence of calls on the store, and the [KeyId]s it hands out. *)
Fixpoint run (s : OneTimeKeys) (ops : list op) : OneTimeKeys * list KeyId :=
  match ops with
  | [] => (s, [])
  | o :: rest =>
      let '(s1, ids1) :=
        match o with
        | OpGenerate draws => (generate s draws, generate_ids s draws)
        | OpMarkPublished => (mark_as_published s, [])
        | OpRemove public_key => ((remove_secret_key s public_key).1, [])
        | OpGet _ => (s, [])
        | OpRoundtrip => (roundtrip s, [])
        end in
      let '(s2, ids2) := run s1 rest in
      (s2, ids1 ++ ids2)
  end.

End Store.

(** * Proofs *)

(** ** BTreeMap iteration *)

#[global] Instance key_le_total {A} : Total (@key_le A).
Proof. intros [a ?] [b ?]; unfold key_le; simpl; lia. Qed.

#[global] Instance key_le_trans {A} : Transitive (@key_le A).
Proof. intros [a ?] [b ?] [c ?]; unfold key_le; simpl; lia. Qed.

Lemma btree_iter_perm {A} (m : gmap KeyId A) : btree_iter m ≡ₚ map_to_list m.
Proof. apply merge_sort_Permutation. Qed.

Lemma elem_of_btree_iter {A} (m : gmap KeyId A) k v :
  (k, v) ∈ btree_iter m <-> m !! k = Some v.
Proof. rewrite btree_iter_perm. apply elem_of_map_to_list. Qed.

Lemma NoDup_fst_btree_iter {A} (m : gmap KeyId A) : NoDup (btree_iter m).*1.
Proof. rewrite btree_iter_perm. apply NoDup_fst_map_to_list. Qed.

Lemma btree_iter_sorted {A} (m : gmap KeyId A) :
  StronglySorted key_le (btree_iter m).
Proof. apply Sorted_StronglySorted; [apply _ | apply Sorted_merge_sort, _]. Qed.

Lemma first_key_min {A} (m : gmap KeyId A) k :
  first_key m = Some k -> is_min_key m k.
Proof.
  unfold first_key. pose proof (btree_iter_sorted m) as Hs.
  destruct (btree_iter m) as [|[k0 v0] rest] eqn:E; simpl; [done|].
  intros [= <-]. split.
  - exists v0. apply elem_of_btree_iter. rewrite E. left.
  - intros k' [v' Hk']. apply elem_of_btree_iter in Hk'. rewrite E in Hk'.
    apply elem_of_cons in Hk' as [[= -> ->]|Hk']; [lia|].
    apply StronglySorted_inv in Hs as [_ Hall].
    rewrite Forall_forall in Hall. exact (Hall _ Hk').
Qed.

Lemma first_key_Some {A} (m : gmap KeyId A) :
  size m <> 0 -> exists k, first_key m = Some k.
Proof.
  intros Hsz. apply map_size_ne_0_lookup_1 in Hsz as [i [v Hi]].
  apply elem_of_btree_iter in Hi. unfold first_key.
  destruct (btree_iter m) as [|[k0 v0] rest]; simpl.
  - by apply not_elem_of_nil in Hi.
  - by exists k0.
Qed.

Section Folds.
Context {A : Type}.

Lemma fold_insert_notin (l : list (KeyId * A)) (m0 : gmap KeyId A) k :
  k ∉ l.*1 ->
  fold_left (fun m kv => <[kv.1 := kv.2]> m) l m0 !! k = m0 !! k.
Proof.
  revert m0. induction l as [|[k1 v1] l IH]; intros m0 Hk; simpl; [done|].
  rewrite fmap_cons, elem_of_cons in Hk. simpl in Hk.
  rewrite IH by naive_solver. rewrite lookup_insert_ne; naive_solver.
Qed.

Lemma fold_insert_elem (l : list (KeyId * A)) (m0 : gmap KeyId A) k v :
  NoDup l.*1 -> (k, v) ∈ l ->
  fold_left (fun m kv => <[kv.1 := kv.2]> m) l m0 !! k = Some v.
Proof.
  revert m0. induction l as [|[k1 v1] l IH]; intros m0 Hnd Hin; simpl.
  - by apply not_elem_of_nil in Hin.
  - rewrite fmap_cons in Hnd. apply NoDup_cons in Hnd as [Hk1 Hnd].
    apply elem_of_cons in Hin as [[= -> ->]|Hin].
    + rewrite fold_insert_notin by done. apply lookup_insert_eq.
    + by apply IH.
Qed.

Lemma btree_collect_iter (m : gmap KeyId A) : btree_collect (btree_iter m) = m.
Proof.
  apply map_eq. intros k. unfold btree_collect.
  destruct (m !! k) as [v|] eqn:E.
  - apply fold_insert_elem; [apply NoDup_fst_btree_iter|].
    by apply elem_of_btree_iter.
  - rewrite fold_insert_notin; [apply lookup_empty|].
    intros Hk. apply list_elem_of_fmap in Hk as [[k' v'] [-> Hin]].
    apply elem_of_btree_iter in Hin. simpl in *. congruence.
Qed.

(** The reverse index that [from_pickle] builds. *)
Lemma fold_reverse_lookup (l : list (KeyId * PublicKey)) (m0 : gmap PublicKey KeyId)
    pk kid :
  fold_left (fun m kv => <[kv.2 := kv.1]> m) l m0 !! pk = Some kid ->
  (kid, pk) ∈ l \/ m0 !! pk = Some kid.
Proof.
  revert m0. induction l as [|[k1 v1] l IH]; intros m0 H; simpl in *; [by right|].
  apply IH in H as [H|H]; [left; by right|].
  rewrite lookup_insert in H. case_decide; simplify_eq.
  - left; left.
  - by right.
Qed.

Lemma fold_reverse_is_Some (l : list (KeyId * PublicKey))
    (m0 : gmap PublicKey KeyId) pk :
  is_Some (m0 !! pk) \/ (exists kid, (kid, pk) ∈ l) ->
  is_Some (fold_left (fun m kv => <[kv.2 := kv.1]> m) l m0 !! pk).
Proof.
  revert m0. induction l as [|[k1 v1] l IH]; intros m0 H; simpl.
  - destruct H as [H|[kid H]]; [done|]. by apply not_elem_of_nil in H.
  - apply IH. destruct H as [H|[kid H]].
    + left. rewrite lookup_insert. case_decide; [done|]. done.
    + apply elem_of_cons in H as [[= -> ->]|H].
      * left. rewrite lookup_insert_eq. done.
      * right. by exists kid.
Qed.

End Folds.

(** ** The store operations *)

Section Proofs.
Context (derive_public : SecretKey -> PublicKey) (PUBLIC_MAX_ONE_TIME_KEYS : nat).

Local Abbreviation MAX_ONE_TIME_KEYS := (MAX_ONE_TIME_KEYS PUBLIC_MAX_ONE_TIME_KEYS).
Local Abbreviation evict_oldest := (evict_oldest derive_public PUBLIC_MAX_ONE_TIME_KEYS).
Local Abbreviation insert_secret_key :=
  (insert_secret_key derive_public PUBLIC_MAX_ONE_TIME_KEYS).
Local Abbreviation generate_one := (generate_one derive_public PUBLIC_MAX_ONE_TIME_KEYS).
Local Abbreviation generate := (generate derive_public PUBLIC_MAX_ONE_TIME_KEYS).
Local Abbreviation generate_ids := (generate_ids derive_public PUBLIC_MAX_ONE_TIME_KEYS).
Local Abbreviation fresh_draws := (fresh_draws derive_public).
Local Abbreviation reachable := (reachable derive_public PUBLIC_MAX_ONE_TIME_KEYS).
Local Abbreviation store_inv := (store_inv derive_public).
Local Abbreviation index_consistent := (index_consistent derive_public).
Local Abbreviation run := (run derive_public PUBLIC_MAX_ONE_TIME_KEYS).
Local Abbreviation reachable_live :=
  (reachable_live derive_public PUBLIC_MAX_ONE_TIME_KEYS).

Lemma evict_oldest_small s :
  size (private_keys s) < MAX_ONE_TIME_KEYS -> evict_oldest s = s.
Proof. intros H. unfold evict_oldest. rewrite decide_False by lia. done. Qed.

(** When the store is full, [evict_oldest] drops the binding of the smallest
    [KeyId] from the three maps. *)
Lemma evict_oldest_full s :
  0 < PUBLIC_MAX_ONE_TIME_KEYS ->
  MAX_ONE_TIME_KEYS <= size (private_keys s) ->
  exists old p,
    is_min_key (private_keys s) old /\ private_keys s !! old = Some p /\
    evict_oldest s =
      mkOneTimeKeys (key_id s) (delete old (unpublished_public_keys s))
        (delete old (private_keys s))
        (delete (derive_public p) (reverse_public_keys s)).
Proof.
  intros Hpos Hfull. unfold evict_oldest. rewrite decide_True by done.
  destruct (first_key_Some (private_keys s)) as [old Hold].
  { unfold MAX_ONE_TIME_KEYS in Hfull. lia. }
  rewrite Hold. apply first_key_min in Hold.
  destruct Hold as [[p Hp] Hmin]. exists old, p. rewrite Hp. done.
Qed.

Lemma generate_one_size s key :
  0 < PUBLIC_MAX_ONE_TIME_KEYS ->
  size (private_keys s) <= MAX_ONE_TIME_KEYS ->
  size (private_keys (generate_one s key)) <= MAX_ONE_TIME_KEYS.
Proof.
  intros Hpos Hs. unfold generate_one, insert_secret_key; simpl.
  rewrite map_size_insert.
  assert (Hle : forall n (m : option SecretKey), (match m with Some _ => id | None => S end) n <= S n)
    by (intros ? []; simpl; lia).
  destruct (decide (MAX_ONE_TIME_KEYS <= size (private_keys s))) as [Hfull|Hnot].
  - destruct (evict_oldest_full s Hpos Hfull) as (old & p & [Hin _] & _ & ->).
    simpl. rewrite map_size_delete_Some by done.
    etrans; [apply Hle|]. unfold MAX_ONE_TIME_KEYS in *. lia.
  - rewrite evict_oldest_small by lia. etrans; [apply Hle|]. lia.
Qed.

Lemma generate_size s draws :
  0 < PUBLIC_MAX_ONE_TIME_KEYS ->
  size (private_keys s) <= MAX_ONE_TIME_KEYS ->
  size (private_keys (generate s draws)) <= MAX_ONE_TIME_KEYS.
Proof.
  revert s. induction draws as [|key draws IH]; intros s Hpos Hs; simpl; [done|].
  apply IH; [done|]. by apply generate_one_size.
Qed.

Lemma generate_calls_size s (calls : list (list SecretKey)) :
  0 < PUBLIC_MAX_ONE_TIME_KEYS ->
  size (private_keys s) <= MAX_ONE_TIME_KEYS ->
  size (private_keys (fold_left generate calls s)) <= MAX_ONE_TIME_KEYS.
Proof.
  revert s. induction calls as [|draws calls IH]; intros s Hpos Hs; simpl; [done|].
  apply IH; [done|]. by apply generate_size.
Qed.

(** ** The store invariant *)

Lemma store_inv_new : store_inv new.
Proof.
  split; simpl; intros *; rewrite !lookup_empty; intros H;
    first [discriminate | destruct H as [? H]; discriminate].
Qed.

Lemma store_inv_publish s : store_inv s -> store_inv (mark_as_published s).
Proof.
  intros [Hids Hunp Hinj Hrev]. split; simpl; try done.
Qed.

Lemma store_inv_remove s public_key :
  store_inv s -> store_inv (remove_secret_key s public_key).1.
Proof.
  intros [Hids Hunp Hinj Hrev]. unfold remove_secret_key.
  destruct (reverse_public_keys s !! public_key) as [kid|] eqn:E; split; simpl.
  - intros k [p Hp]. apply lookup_delete_Some in Hp as [_ Hp]. eauto.
  - intros k v Hv. apply lookup_delete_Some in Hv as [Hne Hv].
    rewrite lookup_delete_ne by done. eauto.
  - intros k1 k2 p1 p2 H1 H2.
    apply lookup_delete_Some in H1 as [_ H1], H2 as [_ H2]. eauto.
  - intros pk k Hk. apply lookup_delete_Some in Hk as [Hne Hk].
    destruct (Hrev _ _ Hk) as (p & Hp & <-).
    destruct (Hrev _ _ E) as (p' & Hp' & Hpub).
    rewrite lookup_delete_ne; [eauto|].
    intros ->. congruence.
  - done.
  - done.
  - done.
  - intros pk k Hk. apply lookup_delete_Some in Hk as [_ Hk]. eauto.
Qed.

Lemma store_inv_roundtrip s : store_inv s -> store_inv (roundtrip s).
Proof.
  intros [Hids Hunp Hinj Hrev].
  unfold roundtrip, to_pickle, from_pickle; simpl.
  rewrite !btree_collect_iter. split; simpl; try done.
  intros pk kid Hk. apply fold_reverse_lookup in Hk as [Hk|Hk].
  - apply elem_of_btree_iter in Hk. eauto.
  - by rewrite lookup_empty in Hk.
Qed.

Lemma evict_oldest_key_id s : key_id (evict_oldest s) = key_id s.
Proof.
  unfold evict_oldest. case_decide as Hfull; [|done].
  destruct (first_key (private_keys s)); done.
Qed.

Lemma evict_oldest_sub s kid p :
  private_keys (evict_oldest s) !! kid = Some p -> private_keys s !! kid = Some p.
Proof.
  unfold evict_oldest. case_decide as Hfull; [|done].
  destruct (first_key (private_keys s)); [|done]. simpl.
  intros H. by apply lookup_delete_Some in H as [_ H].
Qed.

Lemma store_inv_evict s : store_inv s -> store_inv (evict_oldest s).
Proof.
  intros Hinv. unfold evict_oldest. case_decide; [|done].
  destruct (first_key (private_keys s)) as [old|] eqn:Hold; [|done].
  apply first_key_min in Hold as [[p Hp] _]. rewrite Hp.
  destruct Hinv as [Hids Hunp Hinj Hrev]. split; simpl.
  - intros k [q Hq]. apply lookup_delete_Some in Hq as [_ Hq]. eauto.
  - intros k v Hv. apply lookup_delete_Some in Hv as [Hne Hv].
    rewrite lookup_delete_ne by done. eauto.
  - intros k1 k2 p1 p2 H1 H2.
    apply lookup_delete_Some in H1 as [_ H1], H2 as [_ H2]. eauto.
  - intros pk k Hk. apply lookup_delete_Some in Hk as [Hne Hk].
    destruct (Hrev _ _ Hk) as (q & Hq & <-).
    rewrite lookup_delete_ne; [eauto|].
    intros ->. congruence.
Qed.

Lemma u64_incr_small n : (n + 1 < U64_MODULUS)%N -> u64_incr n = (n + 1)%N.
Proof. intros H. unfold u64_incr. apply N.mod_small. done. Qed.

Lemma generate_one_key_id s key :
  key_id (generate_one s key) = u64_incr (key_id s).
Proof. unfold generate_one; simpl. by rewrite evict_oldest_key_id. Qed.

Lemma store_inv_generate_one s key :
  store_inv s ->
  (forall kid p, private_keys s !! kid = Some p -> derive_public p <> derive_public key) ->
  (key_id s + 1 < U64_MODULUS)%N ->
  store_inv (generate_one s key).
Proof.
  intros Hinv Hfresh Hwrap.
  pose proof (store_inv_evict s Hinv) as [Hids Hunp Hinj Hrev].
  pose proof (evict_oldest_key_id s) as Hkid.
  assert (Hnew : private_keys (evict_oldest s) !! key_id s = None).
  { destruct (private_keys (evict_oldest s) !! key_id s) as [p|] eqn:E; [|done].
    exfalso. assert (Hlt := Hids (key_id s) (mk_is_Some _ _ E)). lia. }
  assert (Hfresh1 : forall kid p, private_keys (evict_oldest s) !! kid = Some p ->
    derive_public p <> derive_public key).
  { intros kid p Hp. apply evict_oldest_sub in Hp. eauto. }
  unfold generate_one, insert_secret_key. rewrite Hkid. simpl.
  rewrite u64_incr_small by done.
  split; simpl.
  - intros k [q Hq]. apply lookup_insert_Some in Hq as [[<- _]|[Hne Hq]]; [lia|].
    assert (Hlt := Hids k (mk_is_Some _ _ Hq)). lia.
  - intros k v Hv. apply lookup_insert_Some in Hv as [[<- <-]|[Hne Hv]].
    + exists key. by rewrite lookup_insert_eq.
    + rewrite lookup_insert_ne by done. eauto.
  - intros k1 k2 p1 p2 H1 H2 Hpub.
    apply lookup_insert_Some in H1 as [[<- <-]|[Hne1 H1]];
    apply lookup_insert_Some in H2 as [[<- <-]|[Hne2 H2]]; try done.
    + exfalso. by apply (Hfresh1 _ _ H2).
    + exfalso. by apply (Hfresh1 _ _ H1).
    + eauto.
  - intros pk k Hk. apply lookup_insert_Some in Hk as [[<- <-]|[Hne Hk]].
    + exists key. by rewrite lookup_insert_eq.
    + destruct (Hrev _ _ Hk) as (q & Hq & <-).
      exists q. split; [|done].
      rewrite lookup_insert_ne; [done|]. intros Heq. rewrite <- Heq in Hq.
      congruence.
Qed.

Lemma generate_one_private s key :
  private_keys (generate_one s key) =
    <[key_id s := key]> (private_keys (evict_oldest s)).
Proof. unfold generate_one, insert_secret_key. by rewrite evict_oldest_key_id. Qed.

Lemma fresh_draws_head s key draws :
  fresh_draws s (key :: draws) ->
  forall kid p, private_keys s !! kid = Some p -> derive_public p <> derive_public key.
Proof.
  intros [_ Hall] kid p Hp Heq. apply (Hall _ _ Hp). rewrite Heq. left.
Qed.

Lemma fresh_draws_tail s key draws :
  fresh_draws s (key :: draws) -> fresh_draws (generate_one s key) draws.
Proof.
  intros [Hnd Hall]. rewrite fmap_cons in Hnd.
  apply NoDup_cons in Hnd as [Hkey Hnd]. split; [done|].
  rewrite generate_one_private. intros kid p Hp.
  apply lookup_insert_Some in Hp as [[_ <-]|[_ Hp]]; [done|].
  apply evict_oldest_sub in Hp. intros Hin. apply (Hall _ _ Hp). by right.
Qed.

Lemma store_inv_generate s draws :
  store_inv s -> fresh_draws s draws ->
  (key_id s + N.of_nat (length draws) < U64_MODULUS)%N ->
  store_inv (generate s draws).
Proof.
  revert s. induction draws as [|key draws IH]; intros s Hinv Hfresh Hwrap;
    simpl in *; [done|].
  assert (Hstep : (key_id s + 1 < U64_MODULUS)%N) by lia.
  apply IH.
  - apply store_inv_generate_one; [done| |done].
    by apply (fresh_draws_head s key draws).
  - by apply fresh_draws_tail.
  - rewrite generate_one_key_id, u64_incr_small by done. lia.
Qed.

Lemma reachable_store_inv s : reachable s -> store_inv s.
Proof.
  induction 1.
  - apply store_inv_new.
  - by apply store_inv_generate.
  - by apply store_inv_publish.
  - by apply store_inv_remove.
  - by apply store_inv_roundtrip.
Qed.

Lemma remove_secret_key_None s public_key :
  reverse_public_keys s !! public_key = None ->
  remove_secret_key s public_key = (s, None).
Proof.
  intros H. unfold remove_secret_key. rewrite H, delete_id by done.
  by destruct s.
Qed.

Lemma roundtrip_private_keys s : private_keys (roundtrip s) = private_keys s.
Proof. done. Qed.

Lemma roundtrip_key_id s : key_id (roundtrip s) = key_id s.
Proof. done. Qed.

Lemma roundtrip_unpublished s :
  unpublished_public_keys (roundtrip s) = unpublished_public_keys s.
Proof. unfold roundtrip, from_pickle, to_pickle; simpl. by rewrite !btree_collect_iter. Qed.

(** The reverse index after a round trip indexes exactly the unpublished
    keys. *)
Lemma roundtrip_reverse_Some s pk kid :
  reverse_public_keys (roundtrip s) !! pk = Some kid ->
  unpublished_public_keys s !! kid = Some pk.
Proof.
  unfold roundtrip, from_pickle, to_pickle; simpl. rewrite btree_collect_iter.
  intros H. apply fold_reverse_lookup in H as [H|H].
  - by apply elem_of_btree_iter.
  - by rewrite lookup_empty in H.
Qed.

Lemma roundtrip_reverse_is_Some s pk kid :
  unpublished_public_keys s !! kid = Some pk ->
  is_Some (reverse_public_keys (roundtrip s) !! pk).
Proof.
  unfold roundtrip, from_pickle, to_pickle; simpl. rewrite btree_collect_iter.
  intros H. apply fold_reverse_is_Some. right. exists kid.
  by apply elem_of_btree_iter.
Qed.

(** ** Key ids handed out *)

Lemma map_seq_offset (f : nat -> N) k n :
  map f (seq k n) = map (fun i => f (k + i)) (seq 0 n).
Proof.
  revert f k. induction n as [|n IH]; intros f k; [done|].
  cbn [seq map]. rewrite IH, (IH _ 1). f_equal.
  - f_equal. lia.
  - apply map_ext. intros i. f_equal. lia.
Qed.

Lemma ids_sorted (k : N) j n :
  StronglySorted N.lt (map (fun i => k + N.of_nat i)%N (seq j n)).
Proof.
  revert j. induction n as [|n IH]; intros j; cbn [seq map]; constructor; [done|].
  apply Forall_forall. intros x Hx.
  apply list_elem_of_In, in_map_iff in Hx as (i & <- & Hi).
  apply in_seq in Hi. lia.
Qed.

Lemma generate_ids_key_id s draws :
  (key_id s + N.of_nat (length draws) < U64_MODULUS)%N ->
  generate_ids s draws =
    map (fun i => key_id s + N.of_nat i)%N (seq 0 (length draws)) /\
  key_id (generate s draws) = (key_id s + N.of_nat (length draws))%N.
Proof.
  revert s. induction draws as [|key draws IH]; intros s Hwrap; simpl in *.
  - split; [done | lia].
  - assert (Hk : key_id (generate_one s key) = (key_id s + 1)%N).
    { rewrite generate_one_key_id. apply u64_incr_small. lia. }
    destruct (IH (generate_one s key)) as [Hids Hkey]; [rewrite Hk; lia|].
    rewrite Hids, Hkey, Hk. split; [|lia].
    rewrite (map_seq_offset _ 1). f_equal; [lia|].
    apply map_ext. intros i. lia.
Qed.

Lemma run_key_ids s ops :
  (key_id s + N.of_nat (generated_count ops) < U64_MODULUS)%N ->
  (run s ops).2 = map (fun i => key_id s + N.of_nat i)%N (seq 0 (generated_count ops)) /\
  key_id (run s ops).1 = (key_id s + N.of_nat (generated_count ops))%N.
Proof.
  revert s. induction ops as [|o ops IH]; intros s Hwrap; simpl in *.
  { split; [done | lia]. }
  destruct o as [draws| |public_key|public_key|]; simpl in *.
  - destruct (generate_ids_key_id s draws) as [Hids Hkey]; [lia|].
    destruct (IH (generate s draws)) as [Hids2 Hkey2]; [rewrite Hkey; lia|].
    destruct (run (generate s draws) ops) as [s2 ids2]; simpl in *.
    rewrite Hids, Hids2, Hkey2, Hkey. split; [|lia].
    rewrite seq_app, map_app, (map_seq_offset _ (0 + length draws)). f_equal.
    apply map_ext. intros i. lia.
  - destruct (IH (mark_as_published s)) as [Hids Hkey]; [done|].
    destruct (run (mark_as_published s) ops) as [s2 ids2]; simpl in *. done.
  - assert (Hk : key_id (remove_secret_key s public_key).1 = key_id s).
    { unfold remove_secret_key. by destruct (reverse_public_keys s !! public_key). }
    destruct (IH (remove_secret_key s public_key).1) as [Hids Hkey]; [by rewrite Hk|].
    destruct (run (remove_secret_key s public_key).1 ops) as [s2 ids2]; simpl in *.
    rewrite Hk in Hids, Hkey. done.
  - destruct (IH s) as [Hids Hkey]; [done|].
    destruct (run s ops) as [s2 ids2]; simpl in *. done.
  - destruct (IH (roundtrip s)) as [Hids Hkey]; [done|].
    destruct (run (roundtrip s) ops) as [s2 ids2]; simpl in *. done.
Qed.

(** ** Index consistency away from pickles *)

Lemma index_consistent_new : index_consistent new.
Proof. split; [apply map_Forall_empty | done]. Qed.

Lemma index_consistent_remove s public_key :
  store_inv s -> index_consistent s ->
  index_consistent (remove_secret_key s public_key).1.
Proof.
  intros [_ _ _ Hrev] [Hfwd Hsize]. unfold remove_secret_key.
  destruct (reverse_public_keys s !! public_key) as [kid|] eqn:E; simpl.
  - destruct (Hrev _ _ E) as (p0 & Hp0 & Hpub0). split.
    + intros k q Hq. simpl in Hq |- *. apply lookup_delete_Some in Hq as [Hne Hq].
      rewrite lookup_delete_ne; [by apply Hfwd|].
      intros Heq. rewrite Heq, (Hfwd _ _ Hq) in E. congruence.
    + simpl. rewrite map_size_delete_Some, map_size_delete_Some by eauto. lia.
  - simpl. rewrite delete_id by done. by split.
Qed.

Lemma index_consistent_evict s :
  store_inv s -> index_consistent s -> index_consistent (evict_oldest s).
Proof.
  intros [_ _ Hinj _] [Hfwd Hsize]. unfold evict_oldest.
  case_decide as Hfull; [|by split].
  destruct (first_key (private_keys s)) as [old|] eqn:Hold; [|by split].
  apply first_key_min in Hold as [[p Hp] _]. rewrite Hp. simpl. split.
  - intros k q Hq. simpl in Hq |- *. apply lookup_delete_Some in Hq as [Hne Hq].
    rewrite lookup_delete_ne; [by apply Hfwd|].
    intros Heq. apply Hne. symmetry. exact (Hinj _ _ _ _ Hq Hp (eq_sym Heq)).
  - simpl. rewrite !map_size_delete_Some; [lia | eauto | eexists; by apply Hfwd].
Qed.

Lemma index_consistent_generate_one s key :
  store_inv s -> index_consistent s ->
  (forall kid p, private_keys s !! kid = Some p -> derive_public p <> derive_public key) ->
  index_consistent (generate_one s key).
Proof.
  intros Hinv Hidx Hfresh.
  pose proof (store_inv_evict s Hinv) as [Hids _ _ Hrev].
  destruct (index_consistent_evict s Hinv Hidx) as [Hfwd Hsize].
  pose proof (evict_oldest_key_id s) as Hkid.
  assert (Hfresh1 : forall kid p, private_keys (evict_oldest s) !! kid = Some p ->
    derive_public p <> derive_public key).
  { intros kid p Hp. apply evict_oldest_sub in Hp. eauto. }
  assert (Hnew : private_keys (evict_oldest s) !! key_id s = None).
  { destruct (private_keys (evict_oldest s) !! key_id s) as [p|] eqn:E; [|done].
    exfalso. assert (Hlt := Hids (key_id s) (mk_is_Some _ _ E)). lia. }
  assert (Hnewpub : reverse_public_keys (evict_oldest s) !! derive_public key = None).
  { destruct (reverse_public_keys (evict_oldest s) !! derive_public key) eqn:E;
      [|done].
    destruct (Hrev _ _ E) as (q & Hq & Hpub). by destruct (Hfresh1 _ _ Hq). }
  unfold generate_one, insert_secret_key. rewrite Hkid. simpl. split.
  - intros k q Hq. simpl in Hq |- *. apply lookup_insert_Some in Hq as [[<- <-]|[Hne Hq]].
    + apply lookup_insert_eq.
    + rewrite lookup_insert_ne; [by apply Hfwd|]. intros Heq.
      by apply (Hfresh1 _ _ Hq).
  - simpl. rewrite map_size_insert_None, map_size_insert_None by done. lia.
Qed.

Lemma live_inv_generate s draws :
  store_inv s -> index_consistent s -> fresh_draws s draws ->
  (key_id s + N.of_nat (length draws) < U64_MODULUS)%N ->
  index_consistent (generate s draws).
Proof.
  revert s. induction draws as [|key draws IH]; intros s Hinv Hidx Hfresh Hwrap;
    simpl in *; [done|].
  assert (Hstep : (key_id s + 1 < U64_MODULUS)%N) by lia.
  assert (Hhead := fresh_draws_head s key draws Hfresh).
  apply IH.
  - by apply store_inv_generate_one.
  - by apply index_consistent_generate_one.
  - by apply fresh_draws_tail.
  - rewrite generate_one_key_id, u64_incr_small by done. lia.
Qed.

(** Every store reached without a pickle round trip satisfies I1: the
    insertion, eviction and removal paths keep the reverse index in step
    with [private_keys]. *)
Lemma reachable_live_index_consistent s :
  reachable_live s -> store_inv s /\ index_consistent s.
Proof.
  induction 1 as [|s draws _ [Hinv Hidx] Hfresh Hwrap|s _ [Hinv Hidx]
                 |s public_key _ [Hinv Hidx]].
  - split; [apply store_inv_new | apply index_consistent_new].
  - split; [by apply store_inv_generate | by apply live_inv_generate].
  - split; [by apply store_inv_publish | done].
  - split; [by apply store_inv_remove | by apply index_consistent_remove].
Qed.

Lemma evict_oldest_new : evict_oldest new = new.
Proof. unfold evict_oldest. case_decide; done. Qed.

(** ** Claims *)

(** C1 (index consistency, I1): a published key that goes through a pickle
    round trip stays in [private_keys] but loses its reverse-index entry, so
    the reachable store below violates I1: one private key, an empty reverse
    index. *)
Theorem roundtrip_breaks_index_consistency (key : SecretKey) :
  let s := roundtrip (mark_as_published (generate new [key])) in
  reachable s /\ private_keys s = {[0%N := key]} /\
  reverse_public_keys s = ∅ /\ ~ index_consistent s.
Proof.
  assert (Hgen : generate new [key] =
    mkOneTimeKeys 1 {[0%N := derive_public key]} {[0%N := key]}
      {[derive_public key := 0%N]}).
  { cbn [generate]. unfold generate_one, insert_secret_key.
    rewrite evict_oldest_new. done. }
  cbv zeta. rewrite Hgen. split; [|split; [done|split; [done|]]].
  - apply reachable_roundtrip, reachable_publish. rewrite <- Hgen.
    apply reachable_generate; [apply reachable_new| |done].
    split; [apply NoDup_singleton|]. apply map_Forall_empty.
  - intros [Hidx _]. specialize (Hidx 0%N key (lookup_insert_eq _ _ _)).
    done.
Qed.

(** C2: after a pickle round trip, a key that was published at pickling time
    can no longer be resolved by its public key ([get_secret_key] and
    [remove_secret_key] find nothing), although its private key is still in
    [private_keys]. *)
Theorem roundtrip_published_unresolvable s kid p :
  reachable s ->
  private_keys s !! kid = Some p ->
  unpublished_public_keys s !! kid = None ->
  get_secret_key (roundtrip s) (derive_public p) = None /\
  remove_secret_key (roundtrip s) (derive_public p) = (roundtrip s, None) /\
  private_keys (roundtrip s) !! kid = Some p.
Proof.
  intros Hreach Hp Hunpub.
  destruct (reachable_store_inv s Hreach) as [_ Hunp Hinj _].
  assert (Hrev : reverse_public_keys (roundtrip s) !! derive_public p = None).
  { destruct (reverse_public_keys (roundtrip s) !! derive_public p) as [k|] eqn:E;
      [|done].
    apply roundtrip_reverse_Some in E.
    destruct (Hunp _ _ E) as (q & Hq & Hpub).
    rewrite (Hinj _ _ _ _ Hq Hp Hpub) in E. congruence. }
  split; [|split].
  - unfold get_secret_key. by rewrite Hrev.
  - by apply remove_secret_key_None.
  - by rewrite roundtrip_private_keys.
Qed.

(** C3 (capacity bound, I3): from a store holding at most
    [MAX_ONE_TIME_KEYS] private keys, every prefix of a sequence of
    [generate] calls leaves at most [MAX_ONE_TIME_KEYS] private keys. *)
Theorem generate_capacity_bound s (calls : list (list SecretKey)) :
  0 < PUBLIC_MAX_ONE_TIME_KEYS ->
  size (private_keys s) <= MAX_ONE_TIME_KEYS ->
  forall i,
    size (private_keys (fold_left generate (take i calls) s)) <= MAX_ONE_TIME_KEYS.
Proof. intros Hpos Hs i. by apply generate_calls_size. Qed.

(** C4: a pickle round trip keeps [key_id], and every key that was unpublished
    at pickling time is still resolved by [get_secret_key] on its public key,
    to its private key. *)
Theorem roundtrip_unpublished_resolvable s :
  reachable s ->
  key_id (roundtrip s) = key_id s /\
  forall kid v, unpublished_public_keys s !! kid = Some v ->
    exists p, private_keys s !! kid = Some p /\ derive_public p = v /\
      get_secret_key (roundtrip s) v = Some p.
Proof.
  intros Hreach. split; [apply roundtrip_key_id|].
  destruct (reachable_store_inv s Hreach) as [_ Hunp Hinj _].
  intros kid v Hv. destruct (Hunp _ _ Hv) as (p & Hp & Hpub).
  exists p. split; [done|split; [done|]].
  destruct (roundtrip_reverse_is_Some s v kid Hv) as [k Hk].
  unfold get_secret_key. rewrite roundtrip_private_keys, Hk.
  apply roundtrip_reverse_Some in Hk.
  destruct (Hunp _ _ Hk) as (q & Hq & Hqpub).
  assert (k = kid) as -> by (apply (Hinj _ _ _ _ Hq Hp); congruence).
  done.
Qed.

(** C5 (oldest-first eviction): on a full store, generating one key drops
    exactly the binding of the smallest [KeyId] from [private_keys],
    [unpublished_public_keys] and [reverse_public_keys], keeps every other
    binding, adds the new key under the fresh [key_id], and the smallest
    [KeyId] afterwards is the second smallest one held before. *)
Theorem generate_evicts_oldest s key :
  0 < PUBLIC_MAX_ONE_TIME_KEYS ->
  reachable s ->
  size (private_keys s) = MAX_ONE_TIME_KEYS ->
  exists old p second,
    private_keys s !! old = Some p /\
    is_min_key (private_keys s) old /\
    is_min_key (delete old (private_keys s)) second /\
    private_keys s !! key_id s = None /\
    private_keys (generate s [key]) =
      <[key_id s := key]> (delete old (private_keys s)) /\
    unpublished_public_keys (generate s [key]) =
      <[key_id s := derive_public key]> (delete old (unpublished_public_keys s)) /\
    reverse_public_keys (generate s [key]) =
      <[derive_public key := key_id s]>
        (delete (derive_public p) (reverse_public_keys s)) /\
    is_min_key (private_keys (generate s [key])) second.
Proof.
  intros Hpos Hreach Hfull.
  destruct (reachable_store_inv s Hreach) as [Hids _ _ _].
  destruct (evict_oldest_full s Hpos) as (old & p & Hmin & Hp & Hevict);
    [lia|].
  destruct (first_key_Some (delete old (private_keys s))) as [second Hsecond].
  { rewrite map_size_delete_Some by eauto. unfold MAX_ONE_TIME_KEYS in *. lia. }
  apply first_key_min in Hsecond.
  assert (Hfresh : private_keys s !! key_id s = None).
  { destruct (private_keys s !! key_id s) eqn:E; [|done].
    assert (Hlt := Hids _ (mk_is_Some _ _ E)). lia. }
  assert (Hgen : generate s [key] =
    mkOneTimeKeys (u64_incr (key_id s))
      (<[key_id s := derive_public key]> (delete old (unpublished_public_keys s)))
      (<[key_id s := key]> (delete old (private_keys s)))
      (<[derive_public key := key_id s]>
         (delete (derive_public p) (reverse_public_keys s)))).
  { cbn [generate]. unfold generate_one, insert_secret_key. rewrite Hevict. done. }
  exists old, p, second. rewrite Hgen. simpl.
  do 7 (split; [done|]).
  destruct Hsecond as [[q Hq] Hsmall].
  assert (Hlt : (second < key_id s)%N).
  { apply lookup_delete_Some in Hq as [_ Hq]. exact (Hids _ (mk_is_Some _ _ Hq)). }
  split.
  - rewrite lookup_insert_ne by lia. eauto.
  - intros k' [q' Hq']. apply lookup_insert_Some in Hq' as [[<- _]|[_ Hq']]; [lia|].
    apply Hsmall. eauto.
Qed.

(** C6 (one-shot consumption): when [public_key] resolves, [remove_secret_key]
    returns the key [get_secret_key] resolves, a second [remove_secret_key]
    returns nothing, and the first call has deleted the public key from the
    reverse index and its [KeyId] from [unpublished_public_keys] and
    [private_keys]. *)
Theorem remove_secret_key_one_shot s public_key :
  is_Some (get_secret_key s public_key) ->
  (remove_secret_key s public_key).2 = get_secret_key s public_key /\
  (remove_secret_key (remove_secret_key s public_key).1 public_key).2 = None /\
  reverse_public_keys (remove_secret_key s public_key).1 !! public_key = None /\
  exists kid, reverse_public_keys s !! public_key = Some kid /\
    unpublished_public_keys (remove_secret_key s public_key).1 !! kid = None /\
    private_keys (remove_secret_key s public_key).1 !! kid = None.
Proof.
  unfold get_secret_key, remove_secret_key. intros Hsome.
  destruct (reverse_public_keys s !! public_key) as [kid|] eqn:E;
    simpl in *; [|by destruct Hsome].
  rewrite !lookup_delete_eq. split; [done|split; [done|split; [done|]]].
  exists kid. by rewrite !lookup_delete_eq.
Qed.

(** C7 (publish frame and idempotence): [mark_as_published] empties
    [unpublished_public_keys], leaves [private_keys], [reverse_public_keys]
    and [key_id] as they are, and a second call changes nothing. *)
Theorem mark_as_published_frame s :
  unpublished_public_keys (mark_as_published s) = ∅ /\
  private_keys (mark_as_published s) = private_keys s /\
  reverse_public_keys (mark_as_published s) = reverse_public_keys s /\
  key_id (mark_as_published s) = key_id s /\
  mark_as_published (mark_as_published s) = mark_as_published s.
Proof. repeat split. Qed.

(** C8 (key ids, amended): along any sequence of calls from any store in
    which the u64 counter does not wrap, the [KeyId]s handed out are
    [key_id], [key_id + 1], ... in strictly increasing order (none is
    reused), [key_id] grows by the number of keys generated, and
    [generate] of zero keys leaves the store unchanged. *)
Theorem run_assigns_consecutive_ids s ops :
  (key_id s + N.of_nat (generated_count ops) < U64_MODULUS)%N ->
  (run s ops).2 =
    map (fun i => key_id s + N.of_nat i)%N (seq 0 (generated_count ops)) /\
  StronglySorted N.lt (run s ops).2 /\
  key_id (run s ops).1 = (key_id s + N.of_nat (generated_count ops))%N /\
  generate s [] = s.
Proof.
  intros Hwrap. destruct (run_key_ids s ops Hwrap) as [Hids Hkey].
  split; [done|split; [|split; [done|done]]].
  rewrite Hids. apply ids_sorted.
Qed.

(** C10 (failed [remove_secret_key] is atomic): for a public key without a
    reverse-index entry, [remove_secret_key] returns nothing and the store is
    unchanged. *)
Theorem remove_secret_key_unknown s public_key :
  reverse_public_keys s !! public_key = None ->
  remove_secret_key s public_key = (s, None).
Proof. apply remove_secret_key_None. Qed.

(** ** Further properties of the code *)

(** A key inserted by [insert_secret_key], published or not, is found again
    by [get_secret_key] on its public key, whatever the store held before. *)
Theorem insert_secret_key_get s kid key published :
  get_secret_key (insert_secret_key s kid key published) (derive_public key) =
    Some key.
Proof.
  unfold get_secret_key, insert_secret_key. simpl.
  rewrite lookup_insert_eq. simpl. apply lookup_insert_eq.
Qed.



(** [remove_secret_key] returns exactly what [get_secret_key] finds, in every
    store, whether or not the public key is known. *)
Theorem remove_secret_key_returns_get s public_key :
  (remove_secret_key s public_key).2 = get_secret_key s public_key.
Proof.
  unfold remove_secret_key, get_secret_key.
  by destruct (reverse_public_keys s !! public_key).
Qed.

(** In a reachable store, [get_secret_key] and [remove_secret_key] only ever
    return a private key whose public key is the one asked for. *)
Theorem reachable_lookup_matches s public_key q :
  reachable s ->
  get_secret_key s public_key = Some q ->
  derive_public q = public_key /\ (remove_secret_key s public_key).2 = Some q.
Proof.
  intros Hreach Hget.
  destruct (reachable_store_inv s Hreach) as [_ _ _ Hrev].
  split.
  - unfold get_secret_key in Hget.
    destruct (reverse_public_keys s !! public_key) as [kid|] eqn:E;
      simpl in Hget; [|done].
    destruct (Hrev _ _ E) as (p & Hp & Hpub). congruence.
  - rewrite <- Hget. unfold remove_secret_key, get_secret_key.
    by destruct (reverse_public_keys s !! public_key).
Qed.

(** Loading a pickle and pickling the result again gives back the same
    pickle. *)
Theorem pickle_roundtrip (p : OneTimeKeysPickle) : to_pickle (from_pickle p) = p.
Proof.
  destruct p as [k pub priv]. unfold to_pickle, from_pickle. simpl.
  by rewrite !btree_collect_iter.
Qed.

(** A save-and-reload keeps [key_id], [private_keys] and
    [unpublished_public_keys]; only the reverse index is rebuilt, and a
    second save-and-reload changes nothing more. *)
Theorem roundtrip_fields_idempotent s :
  key_id (roundtrip s) = key_id s /\
  private_keys (roundtrip s) = private_keys s /\
  unpublished_public_keys (roundtrip s) = unpublished_public_keys s /\
  roundtrip (roundtrip s) = roundtrip s.
Proof.
  split; [done|split; [done|split; [apply roundtrip_unpublished|]]].
  unfold roundtrip at 1 2. f_equal. unfold to_pickle, roundtrip, from_pickle. simpl.
  by rewrite !btree_collect_iter.
Qed.

(** Saving and reloading a store right after [mark_as_published] leaves an
    empty reverse index: no public key can be resolved or taken any more. *)
Theorem roundtrip_after_publish s public_key :
  reverse_public_keys (roundtrip (mark_as_published s)) = ∅ /\
  get_secret_key (roundtrip (mark_as_published s)) public_key = None /\
  (remove_secret_key (roundtrip (mark_as_published s)) public_key).2 = None.
Proof.
  assert (Hrev : reverse_public_keys (roundtrip (mark_as_published s)) = ∅).
  { unfold roundtrip, to_pickle, from_pickle, mark_as_published. simpl.
    unfold btree_collect, btree_iter. rewrite map_to_list_empty. done. }
  split; [done|]. unfold get_secret_key, remove_secret_key.
  rewrite Hrev, lookup_empty. done.
Qed.

(** I2 of the spec, in every reachable store: each unpublished entry
    [kid -> pk] belongs to a held private key whose public key is [pk]. *)
Theorem reachable_unpublished_held s kid pk :
  reachable s ->
  unpublished_public_keys s !! kid = Some pk ->
  exists p, private_keys s !! kid = Some p /\ derive_public p = pk.
Proof.
  intros Hreach. destruct (reachable_store_inv s Hreach) as [_ Hunp _ _].
  apply Hunp.
Qed.

(** In every reachable store, each held [KeyId] is below the counter
    [key_id], so the next generated key never lands on a held one. *)
Theorem reachable_ids_below_counter s kid :
  reachable s -> is_Some (private_keys s !! kid) -> (kid < key_id s)%N.
Proof.
  intros Hreach. destruct (reachable_store_inv s Hreach) as [Hids _ _ _].
  apply Hids.
Qed.

(** One step of [generate] on a store holding exactly the [KeyId]s
    [a .. key_id - 1]. *)
Lemma generate_one_window s a key :
  0 < PUBLIC_MAX_ONE_TIME_KEYS ->
  (a <= key_id s)%N ->
  (key_id s - a <= N.of_nat MAX_ONE_TIME_KEYS)%N ->
  (forall k, is_Some (private_keys s !! k) <-> (a <= k < key_id s)%N) ->
  size (private_keys s) = N.to_nat (key_id s - a) ->
  (key_id s + 1 < U64_MODULUS)%N ->
  let a' := N.max a (key_id s + 1 - N.of_nat MAX_ONE_TIME_KEYS) in
  key_id (generate_one s key) = (key_id s + 1)%N /\
  (forall k, is_Some (private_keys (generate_one s key) !! k) <->
     (a' <= k < key_id s + 1)%N) /\
  size (private_keys (generate_one s key)) = N.to_nat (key_id s + 1 - a').
Proof.
  intros Hpos Hab Hcap Hdom Hsize Hwrap a'.
  assert (Hmax : (100 <= N.of_nat MAX_ONE_TIME_KEYS)%N)
    by (unfold MAX_ONE_TIME_KEYS; lia).
  assert (Hb : private_keys s !! key_id s = None).
  { destruct (private_keys s !! key_id s) eqn:E; [|done].
    assert (H := proj1 (Hdom (key_id s)) (mk_is_Some _ _ E)). lia. }
  rewrite generate_one_key_id, u64_incr_small by done.
  split; [done|]. rewrite generate_one_private.
  destruct (decide (MAX_ONE_TIME_KEYS <= size (private_keys s))) as [Hfull|Hnot].
  - destruct (evict_oldest_full s Hpos Hfull) as (old & p & [Hin Hmin] & Hp & Hev).
    rewrite Hev. simpl.
    assert (Ha : is_Some (private_keys s !! a)) by (apply Hdom; lia).
    assert (old = a) as ->.
    { apply Hdom in Hin. specialize (Hmin _ Ha). lia. }
    assert (Ha' : a' = (a + 1)%N) by (unfold a'; lia).
    rewrite Ha'. split.
    + intros k. rewrite lookup_insert_is_Some, lookup_delete_is_Some, Hdom. lia.
    + rewrite map_size_insert_None.
      * rewrite map_size_delete_Some by done. lia.
      * rewrite lookup_delete_ne by lia. done.
  - rewrite evict_oldest_small by lia.
    assert (Ha' : a' = a) by (unfold a'; lia).
    rewrite Ha'. split.
    + intros k. rewrite lookup_insert_is_Some, Hdom. lia.
    + rewrite map_size_insert_None by done. lia.
Qed.

(** Sliding window of [generate]: on a store holding exactly the [KeyId]s
    [a .. key_id - 1] (at most [MAX_ONE_TIME_KEYS] of them), generating [n]
    keys leaves exactly the [KeyId]s [max a (key_id + n - MAX_ONE_TIME_KEYS)
    .. key_id + n - 1]: the newest keys, the oldest ones evicted. From a new
    store this is the behaviour the [store_limit] test checks. *)
Theorem generate_window s a draws :
  0 < PUBLIC_MAX_ONE_TIME_KEYS ->
  (a <= key_id s)%N ->
  (key_id s - a <= N.of_nat MAX_ONE_TIME_KEYS)%N ->
  (forall k, is_Some (private_keys s !! k) <-> (a <= k < key_id s)%N) ->
  size (private_keys s) = N.to_nat (key_id s - a) ->
  (key_id s + N.of_nat (length draws) < U64_MODULUS)%N ->
  let b := (key_id s + N.of_nat (length draws))%N in
  let lo := N.max a (b - N.of_nat MAX_ONE_TIME_KEYS) in
  key_id (generate s draws) = b /\
  (forall k, is_Some (private_keys (generate s draws) !! k) <-> (lo <= k < b)%N) /\
  size (private_keys (generate s draws)) = N.to_nat (b - lo).
Proof.
  revert s a. induction draws as [|key draws IH];
    intros s a Hpos Hab Hcap Hdom Hsize Hwrap b lo; simpl in *.
  - assert (Hlo : lo = a) by (unfold lo, b; lia).
    rewrite Hlo. unfold b. rewrite N.add_0_r. split; [done|split; [done|]].
    rewrite Hsize. done.
  - destruct (generate_one_window s a key) as (Hk & Hdom' & Hsize'); try done; [lia|].
    set (a' := N.max a (key_id s + 1 - N.of_nat MAX_ONE_TIME_KEYS)) in *.
    destruct (IH (generate_one s key) a') as (Hk2 & Hdom2 & Hsize2);
      [done | rewrite Hk; lia | rewrite Hk; lia | by rewrite Hk | by rewrite Hk |
       rewrite Hk; lia |].
    rewrite Hk in Hk2, Hdom2, Hsize2.
    assert (Hb : (key_id s + 1 + N.of_nat (length draws))%N = b) by (unfold b; lia).
    assert (Hlo : N.max a' (b - N.of_nat MAX_ONE_TIME_KEYS) = lo)
      by (unfold lo, a', b; lia).
    rewrite Hb in Hk2, Hdom2, Hsize2. rewrite Hlo in Hdom2, Hsize2.
    done.
Qed.

End Proofs.

(** * Concrete runs

    Instances: [PUBLIC_MAX_ONE_TIME_KEYS = 1] (capacity 100, as in the
    spec's scenario) and a stand-in [derive_public] that shifts the number. *)

(** The scenario of the spec with capacity 100: 100 keys, publish, 10 more:
    100 private keys and reverse entries, 10 unpublished, oldest id 10. *)
Example store_limit_scenario :
  let dp := (fun x => x + 1000)%N in
  let s := generate dp 1
    (mark_as_published (generate dp 1 new (N.of_nat <$> seq 0 100)))
    (N.of_nat <$> seq 100 10) in
  size (private_keys s) = 100 /\ size (reverse_public_keys s) = 100 /\
  size (unpublished_public_keys s) = 10 /\ first_key (private_keys s) = Some 10%N.
Proof. vm_compute. repeat split. Qed.

Lemma roundtrip_published_unresolvable_witness :
  let dp := (fun x => x + 1000)%N in
  let s := mark_as_published (generate dp 1 new [5%N]) in
  (reachable dp 1 s /\ private_keys s !! 0%N = Some 5%N /\
   unpublished_public_keys s !! 0%N = None) /\
  (get_secret_key (roundtrip s) (dp 5%N) = None /\
   remove_secret_key (roundtrip s) (dp 5%N) = (roundtrip s, None) /\
   private_keys (roundtrip s) !! 0%N = Some 5%N).
Proof.
  intros dp s.
  assert (Hr : reachable dp 1 s).
  { apply reachable_publish, reachable_generate;
      [apply reachable_new | split | vm_compute; reflexivity].
    - apply NoDup_singleton.
    - apply map_Forall_empty. }
  assert (H1 : private_keys s !! 0%N = Some 5%N) by reflexivity.
  assert (H2 : unpublished_public_keys s !! 0%N = None) by reflexivity.
  split; [split; [exact Hr | split; [exact H1 | exact H2]]|].
  exact (roundtrip_published_unresolvable dp 1 s 0%N 5%N Hr H1 H2).
Defined.

Lemma generate_capacity_bound_witness :
  let dp := (fun x => x + 1000)%N in
  let s := generate dp 1 new (N.of_nat <$> seq 0 100) in
  let calls := [N.of_nat <$> seq 100 5; [200; 201]%N; []] in
  (0 < 1 /\ size (private_keys s) <= MAX_ONE_TIME_KEYS 1) /\
  (forall i, size (private_keys (fold_left (generate dp 1) (take i calls) s))
     <= MAX_ONE_TIME_KEYS 1).
Proof.
  intros dp s calls.
  assert (Hpos : 0 < 1) by lia.
  assert (Hs : size (private_keys s) <= MAX_ONE_TIME_KEYS 1)
    by (vm_compute; lia).
  split; [split; [exact Hpos | exact Hs]|].
  exact (generate_capacity_bound dp 1 s calls Hpos Hs).
Defined.

Lemma roundtrip_unpublished_resolvable_witness :
  let dp := (fun x => x + 1000)%N in
  let s := generate dp 1 new [5%N; 6%N] in
  reachable dp 1 s /\
  (key_id (roundtrip s) = key_id s /\
   forall kid v, unpublished_public_keys s !! kid = Some v ->
     exists p, private_keys s !! kid = Some p /\ dp p = v /\
       get_secret_key (roundtrip s) v = Some p).
Proof.
  intros dp s.
  assert (Hr : reachable dp 1 s).
  { apply reachable_generate; [apply reachable_new | split | vm_compute; reflexivity].
    - apply (bool_decide_unpack _). vm_compute. reflexivity.
    - apply map_Forall_empty. }
  split; [exact Hr|].
  exact (roundtrip_unpublished_resolvable dp 1 s Hr).
Defined.

Lemma generate_evicts_oldest_witness :
  let dp := (fun x => x + 1000)%N in
  let s := generate dp 1 new (N.of_nat <$> seq 0 100) in
  (0 < 1 /\ reachable dp 1 s /\ size (private_keys s) = MAX_ONE_TIME_KEYS 1) /\
  exists old p second,
    private_keys s !! old = Some p /\
    is_min_key (private_keys s) old /\
    is_min_key (delete old (private_keys s)) second /\
    private_keys s !! key_id s = None /\
    private_keys (generate dp 1 s [500%N]) =
      <[key_id s := 500%N]> (delete old (private_keys s)) /\
    unpublished_public_keys (generate dp 1 s [500%N]) =
      <[key_id s := dp 500%N]> (delete old (unpublished_public_keys s)) /\
    reverse_public_keys (generate dp 1 s [500%N]) =
      <[dp 500%N := key_id s]> (delete (dp p) (reverse_public_keys s)) /\
    is_min_key (private_keys (generate dp 1 s [500%N])) second.
Proof.
  intros dp s.
  assert (Hpos : 0 < 1) by lia.
  assert (Hr : reachable dp 1 s).
  { apply reachable_generate; [apply reachable_new | split | vm_compute; reflexivity].
    - apply (bool_decide_unpack _). vm_compute. reflexivity.
    - apply map_Forall_empty. }
  assert (Hsz : size (private_keys s) = MAX_ONE_TIME_KEYS 1)
    by (vm_compute; reflexivity).
  split; [split; [exact Hpos | split; [exact Hr | exact Hsz]]|].
  exact (generate_evicts_oldest dp 1 s 500%N Hpos Hr Hsz).
Defined.

Lemma remove_secret_key_one_shot_witness :
  let s := generate (fun x => x + 1000)%N 1 new [5%N] in
  is_Some (get_secret_key s 1005%N) /\
  ((remove_secret_key s 1005%N).2 = get_secret_key s 1005%N /\
   (remove_secret_key (remove_secret_key s 1005%N).1 1005%N).2 = None /\
   reverse_public_keys (remove_secret_key s 1005%N).1 !! 1005%N = None /\
   exists kid, reverse_public_keys s !! 1005%N = Some kid /\
     unpublished_public_keys (remove_secret_key s 1005%N).1 !! kid = None /\
     private_keys (remove_secret_key s 1005%N).1 !! kid = None).
Proof.
  intros s.
  assert (H : is_Some (get_secret_key s 1005%N)) by (vm_compute; eexists; reflexivity).
  split; [exact H|].
  exact (remove_secret_key_one_shot s 1005%N H).
Defined.

Lemma run_assigns_consecutive_ids_witness :
  let dp := (fun x => x + 1000)%N in
  let ops := [OpGenerate [1; 2]%N; OpMarkPublished; OpRemove 1001%N;
              OpRoundtrip; OpGenerate [3]%N] in
  (key_id new + N.of_nat (generated_count ops) < U64_MODULUS)%N /\
  ((run dp 1 new ops).2 =
     map (fun i => key_id new + N.of_nat i)%N (seq 0 (generated_count ops)) /\
   StronglySorted N.lt (run dp 1 new ops).2 /\
   key_id (run dp 1 new ops).1 = (key_id new + N.of_nat (generated_count ops))%N /\
   generate dp 1 new [] = new).
Proof.
  intros dp ops.
  assert (H : (key_id new + N.of_nat (generated_count ops) < U64_MODULUS)%N)
    by (vm_compute; reflexivity).
  split; [exact H|].
  exact (run_assigns_consecutive_ids dp 1 new ops H).
Defined.

Lemma remove_secret_key_unknown_witness :
  let s := generate (fun x => x + 1000)%N 1 new [5%N] in
  reverse_public_keys s !! 7%N = None /\ remove_secret_key s 7%N = (s, None).
Proof.
  intros s.
  assert (H : reverse_public_keys s !! 7%N = None) by reflexivity.
  split; [exact H|].
  exact (remove_secret_key_unknown s 7%N H).
Defined.

(** C8, as first stated, fails at the top of the u64 range: from a store whose
    counter is [u64::MAX] and which holds a key under [KeyId] 0, generating
    two keys hands out [u64::MAX] and then 0 again (overwriting the held key),
    and leaves [key_id = 1] rather than the old value plus 2. *)
Lemma generate_counter_wraps :
  let dp := (fun x => x + 1000)%N in
  let s := mkOneTimeKeys (U64_MODULUS - 1) ∅ {[0%N := 9%N]} {[dp 9%N := 0%N]} in
  generate_ids dp 1 s [5; 6]%N = [U64_MODULUS - 1; 0]%N /\
  is_Some (private_keys s !! 0%N) /\
  private_keys (generate dp 1 s [5; 6]%N) !! 0%N = Some 6%N /\
  key_id (generate dp 1 s [5; 6]%N) = 1%N /\
  key_id (generate dp 1 s [5; 6]%N) <> (key_id s + 2)%N.
Proof. vm_compute. repeat split; [eexists; reflexivity | discriminate]. Qed.


Lemma reachable_lookup_matches_witness :
  let dp := (fun x => x + 1000)%N in
  let s := generate dp 1 new [5%N; 6%N] in
  (reachable dp 1 s /\ get_secret_key s 1006%N = Some 6%N) /\
  (dp 6%N = 1006%N /\ (remove_secret_key s 1006%N).2 = Some 6%N).
Proof.
  intros dp s.
  assert (Hr : reachable dp 1 s).
  { apply reachable_generate; [apply reachable_new | split | vm_compute; reflexivity].
    - apply (bool_decide_unpack _). vm_compute. reflexivity.
    - apply map_Forall_empty. }
  assert (Hg : get_secret_key s 1006%N = Some 6%N) by (vm_compute; reflexivity).
  split; [split; [exact Hr | exact Hg]|].
  exact (reachable_lookup_matches dp 1 s 1006%N 6%N Hr Hg).
Defined.

Lemma reachable_unpublished_held_witness :
  let dp := (fun x => x + 1000)%N in
  let s := generate dp 1 new [5%N; 6%N] in
  (reachable dp 1 s /\ unpublished_public_keys s !! 1%N = Some 1006%N) /\
  exists p, private_keys s !! 1%N = Some p /\ dp p = 1006%N.
Proof.
  intros dp s.
  assert (Hr : reachable dp 1 s).
  { apply reachable_generate; [apply reachable_new | split | vm_compute; reflexivity].
    - apply (bool_decide_unpack _). vm_compute. reflexivity.
    - apply map_Forall_empty. }
  assert (Hu : unpublished_public_keys s !! 1%N = Some 1006%N)
    by (vm_compute; reflexivity).
  split; [split; [exact Hr | exact Hu]|].
  exact (reachable_unpublished_held dp 1 s 1%N 1006%N Hr Hu).
Defined.

Lemma reachable_ids_below_counter_witness :
  let dp := (fun x => x + 1000)%N in
  let s := mark_as_published (generate dp 1 new [5%N; 6%N]) in
  (reachable dp 1 s /\ is_Some (private_keys s !! 1%N)) /\ (1 < key_id s)%N.
Proof.
  intros dp s.
  assert (Hr : reachable dp 1 s).
  { apply reachable_publish, reachable_generate;
      [apply reachable_new | split | vm_compute; reflexivity].
    - apply (bool_decide_unpack _). vm_compute. reflexivity.
    - apply map_Forall_empty. }
  assert (Hi : is_Some (private_keys s !! 1%N)) by (vm_compute; eexists; reflexivity).
  split; [split; [exact Hr | exact Hi]|].
  exact (reachable_ids_below_counter dp 1 s 1%N Hr Hi).
Defined.

Lemma generate_window_witness :
  let draws := N.of_nat <$> seq 0 105 in
  (0 < 1 /\ (0 <= key_id new)%N /\
   (key_id new - 0 <= N.of_nat (MAX_ONE_TIME_KEYS 1))%N /\
   (forall k, is_Some (private_keys new !! k) <-> (0 <= k < key_id new)%N) /\
   size (private_keys new) = N.to_nat (key_id new - 0) /\
   (key_id new + N.of_nat (length draws) < U64_MODULUS)%N) /\
  (let b := (key_id new + N.of_nat (length draws))%N in
   let lo := N.max 0 (b - N.of_nat (MAX_ONE_TIME_KEYS 1)) in
   key_id (generate (fun x => x + 1000)%N 1 new draws) = b /\
   (forall k, is_Some (private_keys (generate (fun x => x + 1000)%N 1 new draws) !! k)
      <-> (lo <= k < b)%N) /\
   size (private_keys (generate (fun x => x + 1000)%N 1 new draws)) = N.to_nat (b - lo)).
Proof.
  intros draws.
  assert (H1 : 0 < 1) by lia.
  assert (H2 : (0 <= key_id new)%N) by (simpl; lia).
  assert (H3 : (key_id new - 0 <= N.of_nat (MAX_ONE_TIME_KEYS 1))%N)
    by (vm_compute; discriminate).
  assert (H4 : forall k, is_Some (private_keys new !! k) <-> (0 <= k < key_id new)%N).
  { intros k. simpl. rewrite lookup_empty. split; [intros [? H]; discriminate | lia]. }
  assert (H5 : size (private_keys new) = N.to_nat (key_id new - 0)) by reflexivity.
  assert (H6 : (key_id new + N.of_nat (length draws) < U64_MODULUS)%N)
    by (vm_compute; reflexivity).
  split; [exact (conj H1 (conj H2 (conj H3 (conj H4 (conj H5 H6)))))|].
  exact (generate_window (fun x => x + 1000)%N 1 new 0%N draws H1 H2 H3 H4 H5 H6).
Defined.
